(** * Coast & Barista FIRE: the Monte Carlo engine of [barista.py]

    A shallow embedding of [run_monte_carlo] and of the reporting lines that
    follow the call, together with the properties of the specification that
    concern them.

    Modelling choices.
    - Python [int] values (ages, the trial count, the seed) are [Z].
    - Python [float] values (balances, contributions, rates) are exact
      rationals [Qc]; rounding, infinities and NaN are not represented.
    - NumPy's global generator is a state of an arbitrary type [G], threaded
      explicitly.  [np.random.seed] and [np.random.normal] belong to the
      library, not to this repository: the state a seed gives and the
      sampler are section variables.  [np.random.seed] raises for a seed
      outside [0, 2^32 - 1]; that failure is modelled ([None]).
      [np.random.normal] raises for a negative standard deviation; the
      sampler is modelled for [return_vol ≥ 0] only, and a property that
      says a call returns assumes it.
    - [np.zeros] and indexed assignment are modelled on lists, with the
      failures NumPy raises (negative size, index out of range) as [None].
    - The [st.cache_data] decorator is not modelled: the properties are those
      of the function body. *)

From Stdlib Require Import ZArith QArith Qcanon Lia.
From stdpp Require Import base numbers list option.
From stdpp Require Import sorting.

Local Open Scope Z_scope.

(** ** Parameters of a run (the arguments of [run_monte_carlo]) *)

Record params : Type := Params {
  current_age : Z;
  coast_age : Z;
  retire_age : Z;
  life_expectancy : Z;
  current_savings : Qc;
  contrib_full : Qc;
  contrib_barista : Qc;
  withdraw_retire : Qc;
  mean_return : Qc;
  return_vol : Qc;
  n_sims : Z;
  seed : option Z
}.

(** The invariants of the data model: ordered ages, at least one trial,
    non-negative ages and amounts. *)
Definition well_formed (p : params) : Prop :=
  (0 ≤ current_age p ∧ current_age p ≤ coast_age p ∧
   coast_age p ≤ retire_age p ∧ retire_age p ≤ life_expectancy p) ∧
  1 ≤ n_sims p ∧
  (0 ≤ current_savings p ∧ 0 ≤ contrib_full p ∧
   0 ≤ contrib_barista p ∧ 0 ≤ withdraw_retire p)%Qc.

(** What the library accepts: a seed that is absent or within
    [0, 2^32 - 1], and a standard deviation that is not negative. *)
Definition seed_accepted (s : option Z) : Prop :=
  match s with
  | Some s => 0 ≤ s ≤ 4294967295
  | None => True
  end.

Definition library_accepts (p : params) : Prop :=
  seed_accepted (seed p) ∧ (0 ≤ return_vol p)%Qc.

(** ** Numeric helpers *)

(** [x / 100.0] *)
Definition percent (x : Qc) : Qc := (x / Qc_of_Z 100)%Qc.

(** [range(n)]: empty when [n ≤ 0]. *)
Definition range (n : Z) : list Z := seqZ 0 n.

(** ** The generator state monad *)

Definition Rand (G A : Type) : Type := G → A * G.

Definition rret {G A} (a : A) : Rand G A := λ g, (a, g).

Definition rbind {G A B} (m : Rand G A) (k : A → Rand G B) : Rand G B :=
  λ g, let '(a, g') := m g in k a g'.

Notation "x ⇐ m ;; k" := (rbind m (λ x, k))
  (at level 100, m at next level, right associativity, only parsing).

(** ** Loops with [break] *)

(** How the body of a [for] loop over a balance ends: normally, with the
    updated balance, or through [break], with the balance it left. *)
Inductive ctl : Type :=
  | Next (bal : Qc)
  | Break (bal : Qc).

Definition ctl_bal (c : ctl) : Qc :=
  match c with Next b | Break b => b end.

(** [for year in years: body], started with balance [bal]. *)
Fixpoint for_years {G} (body : Z → Qc → Rand G ctl) (years : list Z)
    (bal : Qc) : Rand G ctl :=
  match years with
  | [] => rret (Next bal)
  | year :: rest =>
      c ⇐ body year bal ;;
      match c with
      | Next bal' => for_years body rest bal'
      | Break bal' => rret (Break bal')
      end
  end.

(** A loop body that leaves either a positive balance or, through [break],
    the balance [0]. *)
Definition clamping {G} (body : Z → Qc → Rand G ctl) : Prop :=
  ∀ year bal g,
    match (body year bal g).1 with
    | Next b => (0 < b)%Qc
    | Break b => b = 0%Qc
    end.

(** ** Arrays *)

(** [np.zeros(n)]: raises for a negative size. *)
Definition np_zeros (n : Z) : option (list Qc) :=
  if decide (n < 0) then None else Some (replicate (Z.to_nat n) 0%Qc).

(** [a[i] = v]: a negative index counts from the end, an index outside
    [-len, len) raises. *)
Definition setitem (a : list Qc) (i : Z) (v : Qc) : option (list Qc) :=
  let len := Z.of_nat (length a) in
  if decide (0 ≤ i < len) then Some (<[Z.to_nat i := v]> a)
  else if decide (- len ≤ i < 0) then Some (<[Z.to_nat (len + i) := v]> a)
  else None.

(** ** The engine *)

Section Engine.
Context {G : Type}.
Variable np_random_seed : Z → G.
Variable np_random_normal : Qc → Qc → Rand G Qc.
Variable p : params.

(** Lines 46-53: growth, then the cash flow of the year's age. *)
Definition full_update (year : Z) (bal r : Qc) : Qc :=
  let bal := (bal * (1 + r))%Qc in
  let age := current_age p + year in
  if decide (age < coast_age p) then (bal + contrib_full p)%Qc
  else if decide (age < retire_age p) then (bal + contrib_barista p)%Qc
  else (bal - withdraw_retire p)%Qc.

(** Lines 63-68: the same on the path to retirement, which has no
    withdrawal branch. *)
Definition retire_update (year : Z) (bal_ret r : Qc) : Qc :=
  let bal_ret := (bal_ret * (1 + r))%Qc in
  let age := current_age p + year in
  if decide (age < coast_age p) then (bal_ret + contrib_full p)%Qc
  else (bal_ret + contrib_barista p)%Qc.

(** The draw both loops make at the start of a year (lines 45 and 62). *)
Definition draw_return : Rand G Qc :=
  np_random_normal (percent (mean_return p)) (percent (return_vol p)).

(** Body of the loop of the full path (lines 45-56). *)
Definition full_year (year : Z) (bal : Qc) : Rand G ctl :=
  r ⇐ draw_return ;;
  let bal := full_update year bal r in
  if decide (bal ≤ 0)%Qc then rret (Break 0%Qc) else rret (Next bal).

(** Body of the loop of the path to retirement (lines 62-71). *)
Definition retire_year (year : Z) (bal_ret : Qc) : Rand G ctl :=
  r ⇐ draw_return ;;
  let bal_ret := retire_update year bal_ret r in
  if decide (bal_ret ≤ 0)%Qc then rret (Break 0%Qc) else rret (Next bal_ret).

Definition years_total : Z := life_expectancy p - current_age p.
Definition years_to_retire : Z := retire_age p - current_age p.

(** Lines 43-56: the balance assigned to [final_balances[i]]. *)
Definition full_path : Rand G Qc :=
  c ⇐ for_years full_year (range years_total) (current_savings p) ;;
  rret (ctl_bal c).

(** Lines 60-71: the balance assigned to [retire_balances[i]]. *)
Definition retire_path : Rand G Qc :=
  c ⇐ for_years retire_year (range years_to_retire) (current_savings p) ;;
  rret (ctl_bal c).

(** [for i in range(n_sims)], over the two arrays and the generator. *)
Fixpoint sim_loop (ixs : list Z) (final_balances retire_balances : list Qc)
    (g : G) : option (list Qc * list Qc * G) :=
  match ixs with
  | [] => Some (final_balances, retire_balances, g)
  | i :: rest =>
      let '(bal, g) := full_path g in
      final_balances ← setitem final_balances i bal;
      let '(bal_ret, g) := retire_path g in
      retire_balances ← setitem retire_balances i bal_ret;
      sim_loop rest final_balances retire_balances g
  end.

(** [np.random.seed(s)]: the state of the seed, or the [ValueError] of a
    seed outside [0, 2^32 - 1]. *)
Definition np_seed (s : Z) : option G :=
  if decide (0 ≤ s ≤ 4294967295) then Some (np_random_seed s) else None.

(** The generator state the trials start from (lines 33-34). *)
Definition seeded (g0 : G) : option G :=
  match seed p with
  | Some s => if decide (s ≠ 0) then np_seed s else Some g0
  | None => Some g0
  end.

(** [run_monte_carlo], called with the generator in state [g0].  The result
    carries the generator state the call leaves behind; [None] is a call
    that raises. *)
Definition run_monte_carlo (g0 : G) : option (list Qc * list Qc * G) :=
  g ← seeded g0;
  final_balances ← np_zeros (n_sims p);
  retire_balances ← np_zeros (n_sims p);
  sim_loop (range (n_sims p)) final_balances retire_balances g.

(** *** The trials as a list

    What the loop over the trials computes, without the arrays: one pair of
    balances per trial, the generator passing from each path to the next. *)
Definition trial : Rand G (Qc * Qc) :=
  bal ⇐ full_path ;;
  bal_ret ⇐ retire_path ;;
  rret (bal, bal_ret).

Fixpoint trials (n : nat) : Rand G (list (Qc * Qc)) :=
  match n with
  | O => rret []
  | S n' => t ⇐ trial ;; ts ⇐ trials n' ;; rret (t :: ts)
  end.

End Engine.

(** The two paths of a trial, to state what they share once. *)
Inductive horizon : Type := FullHorizon | RetireHorizon.

Definition year_update (p : params) (h : horizon) : Z → Qc → Qc → Qc :=
  match h with
  | FullHorizon => full_update p
  | RetireHorizon => retire_update p
  end.

Definition year_body {G} (normal : Qc → Qc → Rand G Qc) (p : params)
    (h : horizon) : Z → Qc → Rand G ctl :=
  match h with
  | FullHorizon => full_year normal p
  | RetireHorizon => retire_year normal p
  end.

Definition horizon_years (p : params) (h : horizon) : Z :=
  match h with
  | FullHorizon => years_total p
  | RetireHorizon => years_to_retire p
  end.

Definition path {G} (normal : Qc → Qc → Rand G Qc) (p : params)
    (h : horizon) : Rand G Qc :=
  match h with
  | FullHorizon => full_path normal p
  | RetireHorizon => retire_path normal p
  end.

(** The two arrays of a result, and each of them. *)
Definition finals_of {G} (r : option (list Qc * list Qc * G))
    : option (list Qc) := (λ x, x.1.1) <$> r.
Definition retires_of {G} (r : option (list Qc * list Qc * G))
    : option (list Qc) := (λ x, x.1.2) <$> r.
Definition output {G} (r : option (list Qc * list Qc * G))
    : option (list Qc * list Qc) := fst <$> r.

(** ** The reporting lines (147-150) *)

(** [np.mean] of a non-empty array; [None] stands for the NaN of an empty
    one. *)
Definition np_mean (xs : list Qc) : option Qc :=
  match xs with
  | [] => None
  | _ => Some (foldr Qcplus 0%Qc xs / Qc_of_Z (Z.of_nat (length xs)))%Qc
  end.

(** A boolean array read as numbers. *)
Definition as_number (b : bool) : Qc := if b then 1%Qc else 0%Qc.

Definition years_retirement (p : params) : Z :=
  Z.max 0 (life_expectancy p - retire_age p).

Definition target (p : params) : Qc :=
  (withdraw_retire p * Qc_of_Z (years_retirement p))%Qc.

Definition prob_target (p : params) (retires : list Qc) : option Qc :=
  np_mean ((λ x, as_number (bool_decide (target p ≤ x)%Qc)) <$> retires).

Definition prob_survive (finals : list Qc) : option Qc :=
  np_mean ((λ x, as_number (bool_decide (0 < x)%Qc)) <$> finals).

(** ** The wording of the specification *)

(** The cash flow of a year, by the age it is selected on. *)
Inductive cash_flow (p : params) (age : Z) (bal : Qc) : Qc → Prop :=
  | flow_full :
      age < coast_age p → cash_flow p age bal (bal + contrib_full p)%Qc
  | flow_barista :
      coast_age p ≤ age < retire_age p →
      cash_flow p age bal (bal + contrib_barista p)%Qc
  | flow_withdraw :
      retire_age p ≤ age → cash_flow p age bal (bal - withdraw_retire p)%Qc.

(** The fixed-rate rule, iterated year by year from [age]: growth by
    [1 + rate], the cash flow of the age, and the stop at a balance [≤ 0]. *)
Fixpoint fixed_rate (flow : Z → Qc) (rate : Qc) (years : nat) (age : Z)
    (bal : Qc) : Qc :=
  match years with
  | O => bal
  | S years' =>
      let bal' := (bal * (1 + rate) + flow age)%Qc in
      if decide (bal' ≤ 0)%Qc then 0%Qc
      else fixed_rate flow rate years' (age + 1) bal'
  end.

Definition full_flow (p : params) (age : Z) : Qc :=
  if decide (age < coast_age p) then contrib_full p
  else if decide (age < retire_age p) then contrib_barista p
  else (- withdraw_retire p)%Qc.

Definition retire_flow (p : params) (age : Z) : Qc :=
  if decide (age < coast_age p) then contrib_full p else contrib_barista p.

Definition year_flow (p : params) (h : horizon) : Z → Qc :=
  match h with
  | FullHorizon => full_flow p
  | RetireHorizon => retire_flow p
  end.

Definition closed_final (p : params) : Qc :=
  fixed_rate (full_flow p) (percent (mean_return p))
    (Z.to_nat (life_expectancy p - current_age p)) (current_age p)
    (current_savings p).

Definition closed_retire (p : params) : Qc :=
  fixed_rate (retire_flow p) (percent (mean_return p))
    (Z.to_nat (retire_age p - current_age p)) (current_age p)
    (current_savings p).

(** The share of the entries of [xs] that satisfy [P]. *)
Definition fraction (P : Qc → Prop) `{∀ x, Decision (P x)} (xs : list Qc)
    : Qc :=
  (Qc_of_Z (Z.of_nat (length (filter P xs)))
   / Qc_of_Z (Z.of_nat (length xs)))%Qc.

(** Two parameter sets that differ at most in [withdraw_retire]. *)
Definition with_withdraw (w : Qc) (p : params) : params :=
  Params (current_age p) (coast_age p) (retire_age p) (life_expectancy p)
         (current_savings p) (contrib_full p) (contrib_barista p) w
         (mean_return p) (return_vol p) (n_sims p) (seed p).

(** Trial by trial along a run of [n] trials from the state [g], the full
    paths under [p1] and under [p2] leave the generator in the same state
    (the paths to retirement are run under [p1]). *)
Fixpoint full_paths_in_step {G} (normal : Qc → Qc → Rand G Qc)
    (p1 p2 : params) (n : nat) (g : G) : Prop :=
  match n with
  | O => True
  | S n' =>
      (full_path normal p1 g).2 = (full_path normal p2 g).2 ∧
      full_paths_in_step normal p1 p2 n'
        (retire_path normal p1 (full_path normal p1 g).2).2
  end.

(** The same parameters under another seed. *)
Definition with_seed (s : option Z) (p : params) : params :=
  Params (current_age p) (coast_age p) (retire_age p) (life_expectancy p)
         (current_savings p) (contrib_full p) (contrib_barista p)
         (withdraw_retire p) (mean_return p) (return_vol p) (n_sims p) s.

(** A sampler whose draws at standard deviation zero are the mean. *)
Definition degenerate_at_zero {G} (normal : Qc → Qc → Rand G Qc) : Prop :=
  ∀ loc g, (normal loc 0%Qc g).1 = loc.

(** ** A concrete generator, to run the model

    The state is a counter; the [k]-th standard variate is a fixed rational
    in [-3/2, 3/2], and a draw is [loc + scale * variate]. *)
Module CounterGen.

Definition state : Type := Z.
Definition seed_state (s : Z) : state := s.
Definition variate (k : Z) : Qc :=
  Q2Qc (inject_Z ((5 * k + 3) mod 7 - 3) / 2).
Definition normal (loc scale : Qc) : Rand state Qc :=
  λ k, ((loc + scale * variate k)%Qc, k + 1).

Definition run (p : params) (g0 : state) :=
  run_monte_carlo seed_state normal p g0.

End CounterGen.

(** The default inputs of the side bar, with no volatility and one trial
    (the end-to-end example of the specification). *)
Definition sidebar_defaults : params :=
  Params 43 50 60 85 (Qc_of_Z 1090000) (Qc_of_Z 24000) (Qc_of_Z 5000)
         (Qc_of_Z 95000) (Q2Qc 7.5) 0%Qc 1 (Some 1).

(** A short horizon: one year to retirement, two years of withdrawals,
    returns of 5% ± 10%. *)
Definition short_horizon : params :=
  Params 60 60 61 63 (Qc_of_Z 100) 0%Qc 0%Qc 1%Qc (Qc_of_Z 5) (Qc_of_Z 10)
         2 (Some 7).

(** The same person already retired, with a withdrawal the savings cannot
    bear. *)
Definition retired_now : params :=
  Params 60 60 60 62 (Qc_of_Z 100) 0%Qc 0%Qc (Qc_of_Z 1000) (Qc_of_Z 5)
         (Qc_of_Z 10) 2 (Some 7).

(** Nothing saved and nothing put aside before the coast age. *)
Definition empty_start : params :=
  Params 30 40 60 85 0%Qc 0%Qc (Qc_of_Z 5000) (Qc_of_Z 95000) (Q2Qc 7.5)
         (Qc_of_Z 10) 3 None.

(** A horizon that ends at retirement: no year of withdrawal. *)
Definition ends_at_retirement : params :=
  Params 60 60 61 61 (Qc_of_Z 100) 0%Qc 0%Qc 1%Qc (Qc_of_Z 5) (Qc_of_Z 10)
         2 (Some 7).

(** Current age, retirement age and life expectancy all equal. *)
Definition no_years_left : params :=
  Params 60 60 60 60 (Qc_of_Z 100) 0%Qc 0%Qc (Qc_of_Z 1000) (Qc_of_Z 5)
         (Qc_of_Z 10) 2 (Some 7).

(** The arrays and the generator state of a run on the counter
    generator. *)
Definition run_finals (p : params) (g0 : CounterGen.state) : list Qc :=
  default [] (finals_of (CounterGen.run p g0)).
Definition run_retires (p : params) (g0 : CounterGen.state) : list Qc :=
  default [] (retires_of (CounterGen.run p g0)).
Definition run_state (p : params) (g0 : CounterGen.state)
    : CounterGen.state :=
  default g0 ((λ x, x.2) <$> CounterGen.run p g0).

(** The arrays of a run of [short_horizon]. *)
Definition short_finals : list Qc :=
  default [] (finals_of (CounterGen.run short_horizon 0)).
Definition short_retires : list Qc :=
  default [] (retires_of (CounterGen.run short_horizon 0)).

(** ** The call from the side bar and the rest of the results block *)

(** Line 143: the seed the call passes, [seed if seed != 0 else None]. *)
Definition ui_seed (s : Z) : option Z :=
  if decide (s ≠ 0) then Some s else None.

(** Lines 131-144: the call, with the inputs of the side bar in [p] and the
    number typed in the seed box in [s]. *)
Definition ui_run {G} (np_random_seed : Z → G)
    (np_random_normal : Qc → Qc → Rand G Qc) (p : params) (s : Z) (g : G)
    : option (list Qc * list Qc * G) :=
  run_monte_carlo np_random_seed np_random_normal (with_seed (ui_seed s) p) g.

(** Python's [max(a, b)]: [b] when it is the greater, else [a]. *)
Definition py_max (a b : Qc) : Qc := if decide (a < b)%Qc then b else a.




(** Lines 192 and 222: the second slice of a donut, [max(0.0, 1.0 - x)]. *)
Definition pie_rest (x : Qc) : Qc := py_max 0%Qc (1 - x)%Qc.

(** The returns a loop draws, in order: one at the start of each year it
    runs, up to and including the year it leaves through [break]. *)
Fixpoint years_draws {G} (draw : Rand G Qc) (body : Z → Qc → Rand G ctl)
    (years : list Z) (bal : Qc) (g : G) : list Qc :=
  match years with
  | [] => []
  | year :: rest =>
      (draw g).1 ::
      match body year bal g with
      | (Next bal', g') => years_draws draw body rest bal' g'
      | (Break _, _) => []
      end
  end.

Definition path_draws {G} (normal : Qc → Qc → Rand G Qc) (p : params)
    (h : horizon) (g : G) : list Qc :=
  years_draws (draw_return normal p) (year_body normal p h)
    (range (horizon_years p h)) (current_savings p) g.

(** The same parameters with another number of trials. *)
Definition with_n_sims (n : Z) (p : params) : params :=
  Params (current_age p) (coast_age p) (retire_age p) (life_expectancy p)
         (current_savings p) (contrib_full p) (contrib_barista p)
         (withdraw_retire p) (mean_return p) (return_vol p) n (seed p).

(** [p2] has the ages and the returns of [p1], at least its savings and
    contributions and at most its withdrawal. *)
Definition at_least_as_good (p1 p2 : params) : Prop :=
  current_age p1 = current_age p2 ∧ coast_age p1 = coast_age p2 ∧
  retire_age p1 = retire_age p2 ∧ life_expectancy p1 = life_expectancy p2 ∧
  mean_return p1 = mean_return p2 ∧ return_vol p1 = return_vol p2 ∧
  (current_savings p1 ≤ current_savings p2 ∧
   contrib_full p1 ≤ contrib_full p2 ∧
   contrib_barista p1 ≤ contrib_barista p2 ∧
   withdraw_retire p2 ≤ withdraw_retire p1)%Qc.

(** The short horizon started in debt. *)
Definition in_debt : params :=
  Params 60 60 61 63 (- Qc_of_Z 100)%Qc 0%Qc 0%Qc 1%Qc (Qc_of_Z 5)
         (Qc_of_Z 10) 2 (Some 7).

(** The short horizon under a seed one past the largest the library
    takes. *)
Definition oversized_seed : params :=
  Params 60 60 61 63 (Qc_of_Z 100) 0%Qc 0%Qc 1%Qc (Qc_of_Z 5) (Qc_of_Z 10)
         2 (Some 4294967296).

(** * Properties *)

(** ** The loop combinator and [range] *)

Lemma for_years_app {G} (body : Z → Qc → Rand G ctl) (l1 l2 : list Z)
    (bal : Qc) (g : G) :
  for_years body (l1 ++ l2) bal g =
  match for_years body l1 bal g with
  | (Next b, g') => for_years body l2 b g'
  | (Break b, g') => (Break b, g')
  end.
Proof.
  revert bal g. induction l1 as [|year l1 IH]; intros bal g; [done|].
  cbn [app for_years]. unfold rbind.
  destruct (body year bal g) as [[b|b] g']; [apply IH | done].
Qed.

Lemma range_split (n y : Z) :
  0 ≤ y < n → range n = range y ++ y :: seqZ (y + 1) (n - y - 1).
Proof.
  intros Hy. unfold range.
  replace n with (y + (n - y)) at 1 by lia.
  rewrite seqZ_app by lia. f_equal.
  rewrite seqZ_cons by lia.
  replace (0 + y) with y by lia.
  replace (Z.succ y) with (y + 1) by lia.
  replace (Z.pred (n - y)) with (n - y - 1) by lia. done.
Qed.

Lemma range_nonpos (n : Z) : n ≤ 0 → range n = [].
Proof. intros Hn. unfold range. by rewrite seqZ_nil. Qed.

(** ** The trial loop fills the arrays with the list of trials *)

Section EngineFacts.
Context {G : Type}.
Variable np_random_seed : Z → G.
Variable np_random_normal : Qc → Qc → Rand G Qc.
Variable p : params.

Local Abbreviation full_path' := (full_path np_random_normal p).
Local Abbreviation retire_path' := (retire_path np_random_normal p).
Local Abbreviation trial' := (trial np_random_normal p).
Local Abbreviation trials' := (trials np_random_normal p).
Local Abbreviation sim_loop' := (sim_loop np_random_normal p).
Local Abbreviation run_monte_carlo' := (run_monte_carlo np_random_seed np_random_normal p).

Lemma setitem_middle (done : list Qc) (x v : Qc) (todo : list Qc) (i : Z) :
  i = Z.of_nat (length done) →
  setitem (done ++ x :: todo) i v = Some ((done ++ [v]) ++ todo).
Proof.
  intros ->. unfold setitem. rewrite length_app. cbn [length].
  rewrite decide_True by lia. rewrite Nat2Z.id.
  rewrite insert_app_r_alt by lia. rewrite Nat.sub_diag. cbn.
  by rewrite <- app_assoc.
Qed.

Lemma sim_loop_trials (m : nat) :
  ∀ (done1 todo1 done2 todo2 : list Qc) (g : G),
    length done2 = length done1 →
    (m ≤ length todo1)%nat → (m ≤ length todo2)%nat →
    sim_loop' (seqZ (Z.of_nat (length done1)) (Z.of_nat m))
             (done1 ++ todo1) (done2 ++ todo2) g
    = let '(ts, g') := trials' m g in
      Some (done1 ++ ts.*1 ++ drop m todo1, done2 ++ ts.*2 ++ drop m todo2, g').
Proof.
  induction m as [|m IH]; intros done1 todo1 done2 todo2 g Hlen H1 H2.
  - cbn. by rewrite !drop_0.
  - rewrite seqZ_cons by lia. cbn [sim_loop].
    cbn [trials]. unfold trial, rbind, rret.
    destruct (full_path' g) as [bal g1].
    destruct (retire_path' g1) as [bal_ret g2].
    destruct todo1 as [|x1 todo1]; [cbn in H1; lia|].
    destruct todo2 as [|x2 todo2]; [cbn in H2; lia|].
    rewrite (setitem_middle done1) by done. cbn [mbind option_bind].
    rewrite (setitem_middle done2) by lia. cbn [mbind option_bind].
    replace (Z.succ (Z.of_nat (length done1)))
      with (Z.of_nat (length (done1 ++ [bal]))) by (rewrite length_app; cbn; lia).
    replace (Z.pred (Z.of_nat (S m))) with (Z.of_nat m) by lia.
    rewrite IH; [| rewrite !length_app; cbn; lia | cbn in H1; lia | cbn in H2; lia].
    unfold rbind, rret. destruct (trials' m g2) as [ts g3].
    cbn. by rewrite <- !app_assoc.
Qed.

Lemma run_monte_carlo_trials (g0 : G) :
  0 ≤ n_sims p →
  run_monte_carlo' g0
  = match seeded np_random_seed p g0 with
    | Some g =>
        let '(ts, g') := trials' (Z.to_nat (n_sims p)) g in
        Some (ts.*1, ts.*2, g')
    | None => None
    end.
Proof.
  intros Hn. unfold run_monte_carlo, np_zeros, range.
  destruct (seeded np_random_seed p g0) as [g|]; [|done].
  rewrite decide_False by lia. cbn [mbind option_bind].
  pose proof (sim_loop_trials (Z.to_nat (n_sims p)) []
                (replicate (Z.to_nat (n_sims p)) 0%Qc) []
                (replicate (Z.to_nat (n_sims p)) 0%Qc) g) as H.
  cbn [length app] in H. change (Z.of_nat 0) with 0 in H.
  rewrite Z2Nat.id in H by lia.
  rewrite H by (rewrite ?length_replicate; lia).
  destruct (trials' _ _) as [ts g'].
  rewrite !drop_ge by (rewrite length_replicate; lia).
  by rewrite !app_nil_r.
Qed.

Lemma run_monte_carlo_count (g0 : G) (r : list Qc * list Qc * G) :
  run_monte_carlo' g0 = Some r → 0 ≤ n_sims p.
Proof.
  unfold run_monte_carlo, np_zeros. intros Hrun.
  destruct (seeded np_random_seed p g0) as [g|]; [|done].
  cbn [mbind option_bind] in Hrun. by case_decide; [|lia].
Qed.

Lemma trials_length (n : nat) (g : G) : length (trials' n g).1 = n.
Proof.
  revert g. induction n as [|n IH]; intros g; [done|].
  cbn [trials]. unfold rbind, rret.
  destruct (trial' g) as [t g1]. specialize (IH g1).
  destruct (trials' n g1) as [ts g2]. cbn in *. by rewrite IH.
Qed.

Lemma trials_Forall (P : Qc * Qc → Prop) (n : nat) (g : G) :
  (∀ g', P (trial' g').1) → Forall P (trials' n g).1.
Proof.
  intros HP. revert g. induction n as [|n IH]; intros g; [by constructor|].
  cbn [trials]. unfold rbind, rret.
  pose proof (HP g) as Ht. destruct (trial' g) as [t g1]. specialize (IH g1).
  destruct (trials' n g1) as [ts g2]. cbn in *. by constructor.
Qed.

End EngineFacts.

(** ** One year of a path *)

Lemma percent_0 : percent 0%Qc = 0%Qc.
Proof. unfold percent, Qcdiv. apply Qcmult_0_l. Qed.

Lemma Qc_pos_of_not_le (x : Qc) : ¬ (x ≤ 0)%Qc → (0 < x)%Qc.
Proof. apply Qcnot_le_lt. Qed.

Lemma for_years_reach {G} (body : Z → Qc → Rand G ctl) (pre post : list Z)
    (year : Z) (bal b : Qc) (g g1 : G) :
  for_years body pre bal g = (Next b, g1) →
  for_years body (pre ++ year :: post) bal g =
  match body year b g1 with
  | (Next b', g2) => for_years body post b' g2
  | (Break b', g2) => (Break b', g2)
  end.
Proof.
  intros Hpre. rewrite for_years_app, Hpre. cbn [for_years]. unfold rbind.
  by destruct (body year b g1) as [[b'|b'] g2].
Qed.

Lemma for_years_clamped {G} (body : Z → Qc → Rand G ctl) :
  clamping body →
  ∀ years bal g,
    match (for_years body years bal g).1 with
    | Next b => (years = [] ∧ b = bal) ∨ (0 < b)%Qc
    | Break b => b = 0%Qc
    end.
Proof.
  intros Hbody years. induction years as [|year rest IH]; intros bal g.
  - cbn. by left.
  - cbn [for_years]. unfold rbind. pose proof (Hbody year bal g) as Hy.
    destruct (body year bal g) as [[b|b] g']; cbn in Hy; [|done].
    specialize (IH b g'). destruct (for_years body rest b g') as [[b'|b'] g''];
      cbn in *; [|done].
    right. destruct IH as [[_ ->]|]; done.
Qed.

Lemma for_years_nonneg {G} (body : Z → Qc → Rand G ctl) years bal (g : G) :
  clamping body → (0 ≤ bal)%Qc →
  (0 ≤ ctl_bal (for_years body years bal g).1)%Qc.
Proof.
  intros Hbody Hbal. pose proof (for_years_clamped body Hbody years bal g) as H.
  destruct (for_years body years bal g) as [[b|b] g']; cbn in *.
  - destruct H as [[_ ->]|H]; [done | by apply Qclt_le_weak].
  - subst b. apply Qcle_refl.
Qed.

Section PathFacts.
Context {G : Type}.
Variable np_random_normal : Qc → Qc → Rand G Qc.
Variable p : params.

Lemma full_year_clamping : clamping (full_year np_random_normal p).
Proof.
  intros year bal g. unfold full_year, rbind, rret.
  destruct (draw_return np_random_normal p g) as [r g'].
  case_decide; cbn; [done | by apply Qc_pos_of_not_le].
Qed.

Lemma retire_year_clamping : clamping (retire_year np_random_normal p).
Proof.
  intros year bal g. unfold retire_year, rbind, rret.
  destruct (draw_return np_random_normal p g) as [r g'].
  case_decide; cbn; [done | by apply Qc_pos_of_not_le].
Qed.

Lemma full_path_nonneg (g : G) :
  (0 ≤ current_savings p)%Qc → (0 ≤ (full_path np_random_normal p g).1)%Qc.
Proof.
  intros Hcs. unfold full_path, rbind, rret.
  pose proof (for_years_nonneg (full_year np_random_normal p)
                (range (years_total p)) _ g full_year_clamping Hcs) as H.
  by destruct (for_years _ _ _ g) as [c g'].
Qed.

Lemma retire_path_nonneg (g : G) :
  (0 ≤ current_savings p)%Qc → (0 ≤ (retire_path np_random_normal p g).1)%Qc.
Proof.
  intros Hcs. unfold retire_path, rbind, rret.
  pose proof (for_years_nonneg (retire_year np_random_normal p)
                (range (years_to_retire p)) _ g retire_year_clamping Hcs) as H.
  by destruct (for_years _ _ _ g) as [c g'].
Qed.

Lemma full_path_no_years (g : G) :
  years_total p ≤ 0 → full_path np_random_normal p g = (current_savings p, g).
Proof. intros H. unfold full_path. rewrite range_nonpos by done. reflexivity. Qed.

Lemma retire_path_no_years (g : G) :
  years_to_retire p ≤ 0 →
  retire_path np_random_normal p g = (current_savings p, g).
Proof.
  intros H. unfold retire_path. rewrite range_nonpos by done. reflexivity.
Qed.

Lemma trial_fst (g : G) :
  (trial np_random_normal p g).1.1 = (full_path np_random_normal p g).1.
Proof.
  unfold trial, rbind, rret. destruct (full_path _ _ g) as [b g1].
  by destruct (retire_path _ _ g1).
Qed.

Lemma trial_snd (g : G) :
  (trial np_random_normal p g).1.2
  = (retire_path np_random_normal p (full_path np_random_normal p g).2).1.
Proof.
  unfold trial, rbind, rret. destruct (full_path _ _ g) as [b g1].
  cbn [fst snd]. by destruct (retire_path _ _ g1).
Qed.

Lemma trials_fst_const (x : Qc) (n : nat) (g : G) :
  (∀ g', (full_path np_random_normal p g').1 = x) →
  (trials np_random_normal p n g).1.*1 = replicate n x.
Proof.
  intros Hx. revert g. induction n as [|n IH]; intros g; [done|].
  cbn [trials]. unfold rbind, rret. pose proof (trial_fst g) as Ht.
  rewrite Hx in Ht. destruct (trial _ _ g) as [t g1]. specialize (IH g1).
  destruct (trials _ _ n g1) as [ts g2]. cbn in *. by rewrite Ht, IH.
Qed.

Lemma trials_snd_const (x : Qc) (n : nat) (g : G) :
  (∀ g', (retire_path np_random_normal p g').1 = x) →
  (trials np_random_normal p n g).1.*2 = replicate n x.
Proof.
  intros Hx. revert g. induction n as [|n IH]; intros g; [done|].
  cbn [trials]. unfold rbind, rret. pose proof (trial_snd g) as Ht.
  rewrite Hx in Ht. destruct (trial _ _ g) as [t g1]. specialize (IH g1).
  destruct (trials _ _ n g1) as [ts g2]. cbn in *. by rewrite Ht, IH.
Qed.

End PathFacts.

(** ** The engine as a whole *)

Section Claims.
Context {G : Type}.
Variable np_random_seed : Z → G.
Variable np_random_normal : Qc → Qc → Rand G Qc.

Local Abbreviation run := (run_monte_carlo np_random_seed np_random_normal).
Local Abbreviation all_trials := (trials np_random_normal).

Lemma seeded_nonzero (p : params) (s : Z) (g0 : G) :
  seed p = Some s → s ≠ 0 →
  seeded np_random_seed p g0 = np_seed np_random_seed s.
Proof. intros Hs Hnz. unfold seeded. rewrite Hs. by rewrite decide_True. Qed.

Lemma seeded_accepted (p : params) (g0 : G) :
  seed_accepted (seed p) → ∃ g, seeded np_random_seed p g0 = Some g.
Proof.
  unfold seed_accepted, seeded, np_seed. intros Hs.
  destruct (seed p) as [s|]; [|by eexists].
  case_decide; [|by eexists]. rewrite decide_True by done. by eexists.
Qed.

Lemma run_returns (p : params) (g0 g : G) :
  0 ≤ n_sims p → seeded np_random_seed p g0 = Some g →
  ∃ ts g',
    all_trials p (Z.to_nat (n_sims p)) g = (ts, g')
    ∧ run p g0 = Some (ts.*1, ts.*2, g').
Proof.
  intros Hn Hg. rewrite run_monte_carlo_trials, Hg by done.
  destruct (all_trials p _ _) as [ts g'] eqn:E. by exists ts, g'.
Qed.

Lemma run_inv (p : params) (g0 g' : G) (finals retires : list Qc) :
  run p g0 = Some (finals, retires, g') →
  0 ≤ n_sims p ∧
  ∃ g ts,
    seeded np_random_seed p g0 = Some g ∧
    all_trials p (Z.to_nat (n_sims p)) g = (ts, g') ∧
    finals = ts.*1 ∧ retires = ts.*2.
Proof.
  intros Hrun.
  pose proof (run_monte_carlo_count _ _ _ _ _ Hrun) as Hn.
  split; [done|]. rewrite run_monte_carlo_trials in Hrun by done.
  destruct (seeded np_random_seed p g0) as [g|]; [|done].
  destruct (all_trials p _ g) as [ts g''] eqn:E.
  injection Hrun as <- <- <-. by exists g, ts.
Qed.

Lemma run_returns_accepted (p : params) (g0 : G) :
  0 ≤ n_sims p → library_accepts p →
  ∃ finals retires g', run p g0 = Some (finals, retires, g').
Proof.
  intros Hn [Hs _]. destruct (seeded_accepted p g0 Hs) as [g Hg].
  destruct (run_returns p g0 g Hn Hg) as (ts & g' & _ & R). eauto.
Qed.

(** What every entry of a returned array is: the balance of a path from
    some generator state. *)
Lemma run_entries (p : params) (g0 g' : G) (finals retires : list Qc) :
  run p g0 = Some (finals, retires, g') →
  length finals = Z.to_nat (n_sims p) ∧
  length retires = Z.to_nat (n_sims p) ∧
  (∀ x, x ∈ finals → ∃ g, x = (full_path np_random_normal p g).1) ∧
  (∀ x, x ∈ retires → ∃ g, x = (retire_path np_random_normal p g).1).
Proof.
  intros Hrun. destruct (run_inv _ _ _ _ _ Hrun)
    as (Hn & g & ts & _ & E & -> & ->).
  pose proof (trials_length np_random_normal p (Z.to_nat (n_sims p)) g)
    as Hlen.
  pose proof (trials_Forall np_random_normal p
                (λ t, (∃ g1, t.1 = (full_path np_random_normal p g1).1) ∧
                      (∃ g1, t.2 = (retire_path np_random_normal p g1).1))
                (Z.to_nat (n_sims p)) g) as HF.
  rewrite E in Hlen, HF. cbn [fst] in Hlen, HF.
  rewrite !length_fmap. split; [done|]. split; [done|].
  assert (Forall (λ t, (∃ g1, t.1 = (full_path np_random_normal p g1).1) ∧
                       (∃ g1, t.2 = (retire_path np_random_normal p g1).1))
            ts) as Hts.
  { apply HF. intros g1. split.
    - exists g1. apply trial_fst.
    - eexists. apply trial_snd. }
  rewrite Forall_forall in Hts.
  split; intros x Hx; apply list_elem_of_fmap in Hx as (t & -> & Ht);
    by apply Hts in Ht as [? ?].
Qed.

(** C1. With a non-zero seed, a call does not depend on the state the
    generator is in when it is made: two calls with the same well-formed
    parameters have the same outcome, whatever the earlier call (or
    anything else) left in the generator; when the library accepts the
    seed and the volatility, that outcome is a pair of arrays. *)
Theorem seeded_calls_agree (p : params) (s : Z) (g1 g2 : G) :
  well_formed p → seed p = Some s → s ≠ 0 →
  output (run p g1) = output (run p g2) ∧
  (library_accepts p →
   ∃ finals retires, output (run p g1) = Some (finals, retires)).
Proof.
  intros (_ & Hn & _) Hs Hnz. split.
  - rewrite !run_monte_carlo_trials by lia.
    by rewrite !(seeded_nonzero p s).
  - intros Hacc.
    destruct (run_returns_accepted p g1) as (fs & rs & g' & R);
      [lia | done |].
    exists fs, rs. by rewrite R.
Qed.

(** C2, as the code has it.  With [n_sims = n ≥ 1], a result that the
    call returns is two arrays of length exactly [n]; the call returns when
    the library accepts the seed and the volatility. *)
Theorem output_lengths (p : params) (g : G) :
  1 ≤ n_sims p →
  (∀ finals retires g',
     run p g = Some (finals, retires, g') →
     Z.of_nat (length finals) = n_sims p ∧
     Z.of_nat (length retires) = n_sims p) ∧
  (library_accepts p →
   ∃ finals retires g',
     run p g = Some (finals, retires, g') ∧
     Z.of_nat (length finals) = n_sims p ∧
     Z.of_nat (length retires) = n_sims p).
Proof.
  intros Hn.
  assert (∀ finals retires g',
            run p g = Some (finals, retires, g') →
            Z.of_nat (length finals) = n_sims p ∧
            Z.of_nat (length retires) = n_sims p) as Hlen.
  { intros fs rs g' R. destruct (run_entries _ _ _ _ _ R) as (Hf & Hr & _).
    lia. }
  split; [done|]. intros Hacc.
  destruct (run_returns_accepted p g) as (fs & rs & g' & R); [lia | done |].
  exists fs, rs, g'. split; [done|]. by apply (Hlen _ _ g').
Qed.

(** C6. For well-formed parameters every entry of both arrays of a
    returned result is [≥ 0]; the call returns when the library accepts the
    seed and the volatility. *)
Theorem balances_nonneg (p : params) (g : G) :
  well_formed p →
  (∀ finals retires g',
     run p g = Some (finals, retires, g') →
     Forall (λ x, 0 ≤ x)%Qc finals ∧ Forall (λ x, 0 ≤ x)%Qc retires) ∧
  (library_accepts p →
   ∃ finals retires g', run p g = Some (finals, retires, g')).
Proof.
  intros (_ & Hn & Hcs & _). split.
  - intros fs rs g' R.
    destruct (run_entries _ _ _ _ _ R) as (_ & _ & Hfs & Hrs).
    split; apply Forall_forall; intros x Hx.
    + destruct (Hfs x Hx) as [g0 ->]. by apply full_path_nonneg.
    + destruct (Hrs x Hx) as [g0 ->]. by apply retire_path_nonneg.
  - intros Hacc. apply run_returns_accepted; [lia | done].
Qed.

Lemma constant_array (xs : list Qc) (n : nat) (c : Qc) :
  length xs = n → (∀ x, x ∈ xs → x = c) → xs = replicate n c.
Proof.
  intros Hlen Hall. apply eq_sym, replicate_as_Forall. split; [done|].
  apply Forall_forall. intros x Hx. by rewrite (Hall x Hx).
Qed.

(** C8. A horizon of no years leaves the savings as they are: in a
    returned result, with [life_expectancy - current_age ≤ 0] every final
    balance is [current_savings], with [retire_age - current_age ≤ 0]
    every balance at retirement is, and with the three ages equal both
    arrays are constantly [current_savings]; no sign condition on
    [current_savings] is involved.  The call returns when the library
    accepts the seed and the volatility. *)
Theorem no_years_keeps_savings (p : params) (g : G) :
  1 ≤ n_sims p →
  (∀ finals retires g',
     run p g = Some (finals, retires, g') →
     (life_expectancy p - current_age p ≤ 0 →
      finals = replicate (Z.to_nat (n_sims p)) (current_savings p)) ∧
     (retire_age p - current_age p ≤ 0 →
      retires = replicate (Z.to_nat (n_sims p)) (current_savings p)) ∧
     (current_age p = retire_age p → retire_age p = life_expectancy p →
      finals = replicate (Z.to_nat (n_sims p)) (current_savings p) ∧
      retires = replicate (Z.to_nat (n_sims p)) (current_savings p))) ∧
  (library_accepts p →
   ∃ finals retires g', run p g = Some (finals, retires, g')).
Proof.
  intros Hn. split; [|intros Hacc; apply run_returns_accepted; [lia|done]].
  intros fs rs g' R.
  destruct (run_entries _ _ _ _ _ R) as (Hlf & Hlr & Hfs & Hrs).
  assert (life_expectancy p - current_age p ≤ 0 →
          fs = replicate (Z.to_nat (n_sims p)) (current_savings p)) as HF.
  { intros Hy. apply constant_array; [done|]. intros x Hx.
    destruct (Hfs x Hx) as [g0 ->]. by rewrite full_path_no_years. }
  assert (retire_age p - current_age p ≤ 0 →
          rs = replicate (Z.to_nat (n_sims p)) (current_savings p)) as HR.
  { intros Hy. apply constant_array; [done|]. intros x Hx.
    destruct (Hrs x Hx) as [g0 ->]. by rewrite retire_path_no_years. }
  split; [done|]. split; [done|].
  intros H1 H2. split; [apply HF | apply HR]; lia.
Qed.

Lemma full_year_zero_is_break (p : params) (year : Z) (bal : Qc) (g : G) :
  full_update p year bal (draw_return np_random_normal p g).1 = 0%Qc →
  full_year np_random_normal p year bal g
  = (Break 0%Qc, (draw_return np_random_normal p g).2).
Proof.
  intros H0. unfold full_year, rbind, rret.
  destruct (draw_return np_random_normal p g) as [r g']. cbn in *.
  rewrite H0. by rewrite decide_True by apply Qcle_refl.
Qed.

Lemma full_path_zero_start (p : params) (g : G) :
  current_age p < coast_age p ≤ life_expectancy p →
  current_savings p = 0%Qc → contrib_full p = 0%Qc →
  full_path np_random_normal p g
  = (0%Qc, (draw_return np_random_normal p g).2).
Proof.
  intros Hage Hcs Hcf. unfold full_path, rbind, rret, range, years_total.
  rewrite seqZ_cons by lia. cbn [for_years]. unfold rbind, rret.
  rewrite full_year_zero_is_break; [done|].
  unfold full_update. rewrite decide_True by lia.
  rewrite Hcs, Hcf, Qcmult_0_l. apply Qcplus_0_r.
Qed.

(** C10. A year that ends at exactly [0] ends the path, whatever the cash
    flow of the year was; so with [current_age < coast_age ≤
    life_expectancy], no savings and no full-time contribution, every final
    balance of a returned result is [0], whatever [contrib_barista] and
    [withdraw_retire] are.  The call returns when the library accepts the
    seed and the volatility. *)
Theorem zero_start_depletes (p : params) (g : G) :
  1 ≤ n_sims p →
  current_age p < coast_age p ≤ life_expectancy p →
  current_savings p = 0%Qc → contrib_full p = 0%Qc →
  (∀ year bal g1,
     full_update p year bal (draw_return np_random_normal p g1).1 = 0%Qc →
     full_year np_random_normal p year bal g1
     = (Break 0%Qc, (draw_return np_random_normal p g1).2)) ∧
  (∀ finals retires g',
     run p g = Some (finals, retires, g') →
     finals = replicate (Z.to_nat (n_sims p)) 0%Qc) ∧
  (library_accepts p →
   ∃ retires g',
     run p g = Some (replicate (Z.to_nat (n_sims p)) 0%Qc, retires, g')).
Proof.
  intros Hn Hage Hcs Hcf. split; [intros; by apply full_year_zero_is_break|].
  assert (∀ finals retires g',
            run p g = Some (finals, retires, g') →
            finals = replicate (Z.to_nat (n_sims p)) 0%Qc) as Hzero.
  { intros fs rs g' R.
    destruct (run_entries _ _ _ _ _ R) as (Hlf & _ & Hfs & _).
    apply constant_array; [done|]. intros x Hx.
    destruct (Hfs x Hx) as [g0 ->]. by rewrite full_path_zero_start. }
  split; [done|]. intros Hacc.
  destruct (run_returns_accepted p g) as (fs & rs & g' & R); [lia | done |].
  exists rs, g'. by rewrite <- (Hzero fs rs g' R).
Qed.

End Claims.

(** ** The years of a path *)

Section Years.
Context {G : Type}.
Variable np_random_normal : Qc → Qc → Rand G Qc.

Local Abbreviation draw := (draw_return np_random_normal).

Lemma full_update_cash_flow (p : params) (year : Z) (bal r : Qc) :
  cash_flow p (current_age p + year) (bal * (1 + r))%Qc
            (full_update p year bal r).
Proof.
  unfold full_update. repeat case_decide.
  - by apply flow_full.
  - apply flow_barista. lia.
  - apply flow_withdraw. lia.
Qed.

Lemma cash_flow_functional (p : params) (age : Z) (bal b1 b2 : Qc) :
  coast_age p ≤ retire_age p →
  cash_flow p age bal b1 → cash_flow p age bal b2 → b1 = b2.
Proof. intros Hord H1 H2. destruct H1; destruct H2; (done || lia). Qed.

Lemma year_body_unfold (p : params) (h : horizon) (year : Z) (bal : Qc)
    (g : G) :
  year_body np_random_normal p h year bal g =
  (if decide (year_update p h year bal (draw p g).1 ≤ 0)%Qc then Break 0%Qc
   else Next (year_update p h year bal (draw p g).1),
   (draw p g).2).
Proof.
  destruct h; cbn [year_body year_update];
    unfold full_year, retire_year, rbind, rret;
    destruct (draw p g) as [r g']; cbn [fst snd]; by case_decide.
Qed.

Lemma path_unfold (p : params) (h : horizon) (g : G) :
  path np_random_normal p h g =
  let '(c, g') := for_years (year_body np_random_normal p h)
                    (range (horizon_years p h)) (current_savings p) g in
  (ctl_bal c, g').
Proof. by destruct h. Qed.

(** C3. A year [y] of the full path that is reached with balance [b] draws
    [r] from the normal sampler at mean [mean_return / 100] and standard
    deviation [return_vol / 100], in the generator state the earlier years
    left; the balance becomes [b * (1 + r)] plus the one cash flow of the
    age [current_age + y]; the loop stops at [0] when that is [≤ 0] and
    goes on to the later years from it otherwise. *)
Theorem full_path_year (p : params) (g g1 : G) (y : Z) (b : Qc) :
  0 ≤ y < life_expectancy p - current_age p →
  for_years (full_year np_random_normal p) (range y) (current_savings p) g
  = (Next b, g1) →
  let '(r, g2) := np_random_normal (mean_return p / Qc_of_Z 100)%Qc
                    (return_vol p / Qc_of_Z 100)%Qc g1 in
  ∃ b',
    cash_flow p (current_age p + y) (b * (1 + r))%Qc b' ∧
    (coast_age p ≤ retire_age p →
     ∀ b'', cash_flow p (current_age p + y) (b * (1 + r))%Qc b'' → b'' = b') ∧
    for_years (full_year np_random_normal p)
      (range (life_expectancy p - current_age p)) (current_savings p) g
    = if decide (b' ≤ 0)%Qc then (Break 0%Qc, g2)
      else for_years (full_year np_random_normal p)
             (seqZ (y + 1) (life_expectancy p - current_age p - y - 1)) b' g2.
Proof.
  intros Hy Hreach.
  destruct (np_random_normal _ _ g1) as [r g2] eqn:Hdraw.
  exists (full_update p y b r). split; [apply full_update_cash_flow|].
  split.
  { intros Hord b'' Hb''.
    by apply (cash_flow_functional p _ _ _ _ Hord Hb''),
             full_update_cash_flow. }
  rewrite (range_split _ y) by done.
  rewrite (for_years_reach _ _ _ _ _ _ _ _ Hreach).
  unfold full_year at 1. unfold rbind, rret, draw_return, percent.
  rewrite Hdraw. by case_decide.
Qed.

(** C4. On either path, when the year [y] is reached and ends with a
    balance [≤ 0], the loop leaves through [break] with the balance [0] and
    the generator as that year's draw left it, whatever years would follow;
    the balance recorded for the path is [0]. *)
Theorem depletion_is_terminal (p : params) (h : horizon) (g g1 : G) (y : Z)
    (b : Qc) (post : list Z) :
  for_years (year_body np_random_normal p h) (range y) (current_savings p) g
  = (Next b, g1) →
  (year_update p h y b (draw p g1).1 ≤ 0)%Qc →
  for_years (year_body np_random_normal p h) (range y ++ y :: post)
    (current_savings p) g
  = (Break 0%Qc, (draw p g1).2) ∧
  (0 ≤ y < horizon_years p h →
   path np_random_normal p h g = (0%Qc, (draw p g1).2)).
Proof.
  intros Hreach Hle.
  assert (∀ post', for_years (year_body np_random_normal p h)
                     (range y ++ y :: post') (current_savings p) g
                   = (Break 0%Qc, (draw p g1).2)) as Hstop.
  { intros post'. rewrite (for_years_reach _ _ _ _ _ _ _ _ Hreach).
    rewrite year_body_unfold. by rewrite decide_True. }
  split; [apply Hstop|].
  intros Hy. rewrite path_unfold, (range_split _ y) by done.
  by rewrite Hstop.
Qed.

(** A path that has stopped stays at [0]: the balance of a loop left
    through [break] is [0], and a loop that ran at least one year ends
    either there or above [0]. *)
Lemma path_result_cases (p : params) (h : horizon) (g : G) :
  (path np_random_normal p h g).1 = current_savings p
  ∨ (path np_random_normal p h g).1 = 0%Qc
  ∨ (0 < (path np_random_normal p h g).1)%Qc.
Proof.
  rewrite path_unfold.
  pose proof (for_years_clamped (year_body np_random_normal p h)) as H.
  specialize (H ltac:(destruct h; [apply full_year_clamping
                                  | apply retire_year_clamping])
                (range (horizon_years p h)) (current_savings p) g).
  destruct (for_years _ _ _ g) as [[b|b] g']; cbn in *.
  - destruct H as [[_ ->]|H]; [by left | by right; right].
  - right; by left.
Qed.

End Years.

(** ** No volatility: the fixed-rate rule *)

Section ZeroVolatility.
Context {G : Type}.
Variable np_random_seed : Z → G.
Variable np_random_normal : Qc → Qc → Rand G Qc.
Variable p : params.
Hypothesis no_volatility : return_vol p = 0%Qc.
Hypothesis point_mass : degenerate_at_zero np_random_normal.

Lemma draw_is_mean (g : G) :
  (draw_return np_random_normal p g).1 = percent (mean_return p).
Proof.
  unfold draw_return. rewrite no_volatility, percent_0. apply point_mass.
Qed.

Lemma full_update_flow (year : Z) (bal r : Qc) :
  full_update p year bal r
  = (bal * (1 + r) + full_flow p (current_age p + year))%Qc.
Proof. unfold full_update, full_flow. by repeat case_decide. Qed.

Lemma retire_update_flow (year : Z) (bal r : Qc) :
  retire_update p year bal r
  = (bal * (1 + r) + retire_flow p (current_age p + year))%Qc.
Proof. unfold retire_update, retire_flow. by case_decide. Qed.

Lemma for_years_fixed_rate (h : horizon) (k : nat) :
  ∀ (y : Z) (bal : Qc) (g : G),
    ctl_bal (for_years (year_body np_random_normal p h)
               (seqZ y (Z.of_nat k)) bal g).1
    = fixed_rate (year_flow p h) (percent (mean_return p)) k
                 (current_age p + y) bal.
Proof.
  induction k as [|k IH]; intros y bal g; [done|].
  rewrite seqZ_cons by lia. cbn [for_years fixed_rate]. unfold rbind.
  rewrite year_body_unfold, draw_is_mean.
  replace (year_update p h y bal (percent (mean_return p)))
    with (bal * (1 + percent (mean_return p))
          + year_flow p h (current_age p + y))%Qc
    by (destruct h; cbn; by rewrite ?full_update_flow, ?retire_update_flow).
  case_decide; [done|].
  replace (Z.pred (Z.of_nat (S k))) with (Z.of_nat k) by lia.
  rewrite IH. f_equal. lia.
Qed.

Lemma full_path_closed (g : G) :
  (full_path np_random_normal p g).1 = closed_final p.
Proof.
  pose proof (for_years_fixed_rate FullHorizon
                (Z.to_nat (years_total p)) 0 (current_savings p) g) as H.
  unfold full_path, rbind, rret, range. cbn [year_body year_flow] in H. unfold years_total, years_to_retire in H.
  unfold closed_final. rewrite Z.add_0_r in H. rewrite <- H.
  unfold years_total. destruct (decide (0 ≤ life_expectancy p - current_age p)).
  - rewrite Z2Nat.id by done.
    destruct (for_years _ (seqZ 0 (_ - _)) _ g) as [c g']. reflexivity.
  - rewrite !seqZ_nil by lia. reflexivity.
Qed.

Lemma retire_path_closed (g : G) :
  (retire_path np_random_normal p g).1 = closed_retire p.
Proof.
  pose proof (for_years_fixed_rate RetireHorizon
                (Z.to_nat (years_to_retire p)) 0 (current_savings p) g) as H.
  unfold retire_path, rbind, rret, range. cbn [year_body year_flow] in H. unfold years_total, years_to_retire in H.
  unfold closed_retire. rewrite Z.add_0_r in H. rewrite <- H.
  unfold years_to_retire. destruct (decide (0 ≤ retire_age p - current_age p)).
  - rewrite Z2Nat.id by done.
    destruct (for_years _ (seqZ 0 (_ - _)) _ g) as [c g']. reflexivity.
  - rewrite !seqZ_nil by lia. reflexivity.
Qed.

End ZeroVolatility.

Section MoreClaims.
Context {G : Type}.
Variable np_random_seed : Z → G.
Variable np_random_normal : Qc → Qc → Rand G Qc.

Local Abbreviation run := (run_monte_carlo np_random_seed np_random_normal).

(** C7. With [return_vol = 0], and a sampler that at standard deviation
    zero returns its mean, every trial of a returned result has the same
    two balances: those of the fixed-rate rule iterated year by year at the
    rate [mean_return / 100].  This holds from every generator state and
    under every seed; the call returns under every seed the library
    accepts. *)
Theorem zero_volatility_closed_form (p : params) (s : option Z) (g : G) :
  1 ≤ n_sims p →
  return_vol p = 0%Qc →
  degenerate_at_zero np_random_normal →
  (∀ finals retires g',
     run (with_seed s p) g = Some (finals, retires, g') →
     finals = replicate (Z.to_nat (n_sims p)) (closed_final p) ∧
     retires = replicate (Z.to_nat (n_sims p)) (closed_retire p)) ∧
  (seed_accepted s →
   ∃ g',
     run (with_seed s p) g
     = Some (replicate (Z.to_nat (n_sims p)) (closed_final p),
             replicate (Z.to_nat (n_sims p)) (closed_retire p), g')).
Proof.
  intros Hn Hvol Hdeg.
  assert (∀ finals retires g',
            run (with_seed s p) g = Some (finals, retires, g') →
            finals = replicate (Z.to_nat (n_sims p)) (closed_final p) ∧
            retires = replicate (Z.to_nat (n_sims p)) (closed_retire p))
    as Hclosed.
  { intros fs rs g' R.
    destruct (run_entries np_random_seed np_random_normal _ _ _ _ _ R)
      as (Hlf & Hlr & Hfs & Hrs).
    split; (apply constant_array; [done|]); intros x Hx.
    - destruct (Hfs x Hx) as [g0 ->].
      by rewrite (full_path_closed np_random_normal (with_seed s p)).
    - destruct (Hrs x Hx) as [g0 ->].
      by rewrite (retire_path_closed np_random_normal (with_seed s p)). }
  split; [done|]. intros Hs.
  destruct (run_returns_accepted np_random_seed np_random_normal
              (with_seed s p) g) as (fs & rs & g' & R).
  - cbn; lia.
  - split; [done|]. cbn [return_vol with_seed]. rewrite Hvol.
    apply Qcle_refl.
  - exists g'. by destruct (Hclosed fs rs g' R) as [<- <-].
Qed.

(** *** The withdrawal and the path to retirement *)

Lemma retire_path_with_withdraw (p : params) (w : Qc) (g : G) :
  retire_path np_random_normal (with_withdraw w p) g
  = retire_path np_random_normal p g.
Proof. reflexivity. Qed.

Lemma for_years_ext (body1 body2 : Z → Qc → Rand G ctl) (years : list Z) :
  (∀ y, y ∈ years → ∀ bal g, body1 y bal g = body2 y bal g) →
  ∀ bal g, for_years body1 years bal g = for_years body2 years bal g.
Proof.
  induction years as [|y years IH]; intros Hext bal g; [done|].
  cbn [for_years]. unfold rbind. rewrite Hext by left.
  destruct (body2 y bal g) as [[b|b] g']; [|done].
  apply IH. intros y' Hy'. apply Hext. by right.
Qed.

Lemma full_path_no_withdraw_year (p : params) (w : Qc) (g : G) :
  life_expectancy p ≤ retire_age p →
  full_path np_random_normal (with_withdraw w p) g
  = full_path np_random_normal p g.
Proof.
  intros Hle. unfold full_path, rbind.
  change (years_total (with_withdraw w p)) with (years_total p).
  change (current_savings (with_withdraw w p)) with (current_savings p).
  rewrite (for_years_ext (full_year np_random_normal (with_withdraw w p))
             (full_year np_random_normal p)); [done|].
  intros y Hy bal g0. unfold range, years_total in Hy.
  apply elem_of_seqZ in Hy.
  assert (∀ r, full_update (with_withdraw w p) y bal r
               = full_update p y bal r) as Hupd.
  { intros r. unfold full_update. cbn [with_withdraw current_age coast_age
      retire_age contrib_full contrib_barista withdraw_retire].
    destruct (decide (current_age p + y < coast_age p)); [done|].
    by rewrite !decide_True by lia. }
  unfold full_year, rbind.
  change (draw_return np_random_normal (with_withdraw w p))
    with (draw_return np_random_normal p).
  destruct (draw_return np_random_normal p g0) as [r g1].
  by rewrite Hupd.
Qed.

Lemma trials_retire_agree (p1 p2 : params) (n : nat) :
  (∀ g, retire_path np_random_normal p1 g = retire_path np_random_normal p2 g) →
  ∀ g, full_paths_in_step np_random_normal p1 p2 n g →
       (trials np_random_normal p1 n g).1.*2
       = (trials np_random_normal p2 n g).1.*2
       ∧ (trials np_random_normal p1 n g).2
         = (trials np_random_normal p2 n g).2.
Proof.
  intros Hret. induction n as [|n IH]; intros g Hstep; [done|].
  destruct Hstep as [Hfull Hstep]. specialize (IH _ Hstep).
  cbn [trials]. unfold trial, rbind, rret.
  destruct (full_path np_random_normal p1 g) as [b1 g1].
  destruct (full_path np_random_normal p2 g) as [b2 g2].
  cbn in Hfull, IH. subst g2. rewrite <- Hret.
  destruct (retire_path np_random_normal p1 g1) as [r g3].
  cbn in IH. destruct IH as [IH1 IH2].
  destruct (trials np_random_normal p1 n g3) as [ts1 g4].
  destruct (trials np_random_normal p2 n g3) as [ts2 g5].
  cbn in *. by rewrite IH1, IH2.
Qed.

(** C5, as the code has it.  The path to retirement does not read
    [withdraw_retire]: from a given generator state it returns the same
    balance and leaves the same state whatever the withdrawal is.  The
    arrays of balances at retirement of two runs that differ in the
    withdrawal only are equal when, trial by trial along the runs, the
    full paths of the two runs leave the generator in the same state. *)
Theorem retire_balances_and_withdraw (p : params) (w : Qc) (g0 : G) :
  (∀ g, seeded np_random_seed p g0 = Some g →
        full_paths_in_step np_random_normal (with_withdraw w p) p
          (Z.to_nat (n_sims p)) g) →
  (∀ g, retire_path np_random_normal (with_withdraw w p) g
        = retire_path np_random_normal p g) ∧
  retires_of (run (with_withdraw w p) g0) = retires_of (run p g0).
Proof.
  intros Hstep. split; [intros g; apply retire_path_with_withdraw|].
  destruct (decide (0 ≤ n_sims p)) as [Hn|Hn].
  - rewrite !run_monte_carlo_trials by done.
    change (seeded np_random_seed (with_withdraw w p) g0)
      with (seeded np_random_seed p g0).
    change (n_sims (with_withdraw w p)) with (n_sims p).
    destruct (seeded np_random_seed p g0) as [g|]; [|done].
    destruct (trials_retire_agree (with_withdraw w p) p
                (Z.to_nat (n_sims p)) (retire_path_with_withdraw p w)
                g (Hstep g eq_refl)) as [H1 H2].
    destruct (trials np_random_normal (with_withdraw w p) _ _) as [ts1 g1].
    destruct (trials np_random_normal p _ _) as [ts2 g2].
    cbn in *. by rewrite H1.
  - unfold run_monte_carlo, np_zeros. cbn [n_sims with_withdraw].
    change (seeded np_random_seed (with_withdraw w p) g0)
      with (seeded np_random_seed p g0).
    destruct (seeded np_random_seed p g0) as [g|]; [|done].
    cbn [mbind option_bind]. by rewrite !decide_True by lia.
Qed.

End MoreClaims.

(** ** The reporting lines *)

Lemma sum_indicators (P : Qc → Prop) `{∀ x, Decision (P x)} (xs : list Qc) :
  foldr Qcplus 0%Qc ((λ x, as_number (bool_decide (P x))) <$> xs)
  = Qc_of_Z (Z.of_nat (length (filter P xs))).
Proof.
  induction xs as [|x xs IH]; [symmetry; exact Z2Qc_inj_0|].
  cbn [fmap list_fmap foldr]. rewrite IH, filter_cons.
  destruct (decide (P x)) as [Hx|Hx].
  - rewrite bool_decide_eq_true_2 by done. cbn [length as_number].
    by rewrite Nat2Z.inj_succ, <- Z.add_1_l, Z2Qc_inj_add, Z2Qc_inj_1.
  - rewrite bool_decide_eq_false_2 by done. cbn [as_number].
    apply Qcplus_0_l.
Qed.

Lemma np_mean_indicators (P : Qc → Prop) `{∀ x, Decision (P x)}
    (xs : list Qc) :
  xs ≠ [] →
  np_mean ((λ x, as_number (bool_decide (P x))) <$> xs)
  = Some (fraction P xs).
Proof.
  intros Hne. destruct xs as [|x xs]; [done|].
  unfold np_mean, fraction. rewrite length_fmap.
  change ((λ x0, as_number (bool_decide (P x0))) <$> x :: xs)
    with (as_number (bool_decide (P x))
          :: ((λ x0, as_number (bool_decide (P x0))) <$> xs)) at 1.
  cbv iota. by rewrite sum_indicators.
Qed.


(** ** The model on concrete inputs *)

Lemma counter_normal_degenerate : degenerate_at_zero CounterGen.normal.
Proof.
  intros loc k. unfold CounterGen.normal. cbn [fst].
  rewrite Qcmult_0_l. apply Qcplus_0_r.
Qed.

Lemma short_horizon_well_formed : well_formed short_horizon.
Proof. repeat split; try (cbn; lia); by vm_compute. Qed.

Lemma short_horizon_costly_well_formed :
  well_formed (with_withdraw (Qc_of_Z 1000) short_horizon).
Proof. repeat split; try (cbn; lia); by vm_compute. Qed.

Lemma seeded_calls_agree_witness :
  output (CounterGen.run short_horizon 0)
  = output (CounterGen.run short_horizon 5) ∧
  ∃ finals retires,
    output (CounterGen.run short_horizon 0) = Some (finals, retires).
Proof.
  destruct (seeded_calls_agree CounterGen.seed_state CounterGen.normal
              short_horizon 7 0 5) as [Hsame Hreturns].
  - repeat split; try (cbn; lia); by vm_compute.
  - reflexivity.
  - lia.
  - split; [exact Hsame|]. apply Hreturns.
    split; [cbn; lia | by vm_compute].
Defined.

Lemma output_lengths_witness :
  ∃ finals retires g',
    CounterGen.run short_horizon 0 = Some (finals, retires, g') ∧
    Z.of_nat (length finals) = 2 ∧ Z.of_nat (length retires) = 2.
Proof.
  apply (output_lengths CounterGen.seed_state CounterGen.normal
           short_horizon 0).
  - cbn; lia.
  - split; [cbn; lia | by vm_compute].
Defined.

(** C2, as stated, fails: with the seed 4294967296, which the seed box
    accepts, line 34 raises and the call returns nothing. *)
Lemma oversized_seed_raises :
  well_formed oversized_seed ∧ 1 ≤ n_sims oversized_seed ∧
  CounterGen.run oversized_seed 0 = None ∧
  ¬ ∃ finals retires g',
      CounterGen.run oversized_seed 0 = Some (finals, retires, g') ∧
      Z.of_nat (length finals) = n_sims oversized_seed ∧
      Z.of_nat (length retires) = n_sims oversized_seed.
Proof.
  assert (CounterGen.run oversized_seed 0 = None) as Hnone by reflexivity.
  split; [repeat split; try (cbn; lia); by vm_compute|].
  split; [cbn; lia|]. split; [done|].
  intros (fs & rs & g' & R & _). by rewrite Hnone in R.
Qed.

Lemma balances_nonneg_witness :
  (∀ finals retires g',
     CounterGen.run short_horizon 0 = Some (finals, retires, g') →
     Forall (λ x, 0 ≤ x)%Qc finals ∧ Forall (λ x, 0 ≤ x)%Qc retires) ∧
  ∃ finals retires g',
    CounterGen.run short_horizon 0 = Some (finals, retires, g').
Proof.
  destruct (balances_nonneg CounterGen.seed_state CounterGen.normal
              short_horizon 0) as [Hnonneg Hreturns].
  - repeat split; try (cbn; lia); by vm_compute.
  - split; [exact Hnonneg|]. apply Hreturns.
    split; [cbn; lia | by vm_compute].
Defined.

Lemma no_years_keeps_savings_witness :
  (∀ finals retires g',
     CounterGen.run no_years_left 0 = Some (finals, retires, g') →
     finals = replicate 2 (Qc_of_Z 100) ∧
     retires = replicate 2 (Qc_of_Z 100)) ∧
  ∃ finals retires g',
    CounterGen.run no_years_left 0 = Some (finals, retires, g').
Proof.
  destruct (no_years_keeps_savings CounterGen.seed_state CounterGen.normal
              no_years_left 0) as [Hkeeps Hreturns].
  - cbn; lia.
  - split.
    + intros fs rs g' R. destruct (Hkeeps fs rs g' R) as (_ & _ & Hboth).
      apply Hboth; reflexivity.
    + apply Hreturns. split; [cbn; lia | by vm_compute].
Defined.

Lemma zero_start_depletes_witness :
  ∃ retires g',
    CounterGen.run empty_start 0 = Some (replicate 3 0%Qc, retires, g').
Proof.
  apply (zero_start_depletes CounterGen.seed_state CounterGen.normal
           empty_start 0).
  - cbn; lia.
  - cbn; lia.
  - reflexivity.
  - reflexivity.
  - split; [exact I | by vm_compute].
Defined.

Lemma full_path_year_witness :
  let '(r, g2) := CounterGen.normal (Qc_of_Z 5 / Qc_of_Z 100)%Qc
                    (Qc_of_Z 10 / Qc_of_Z 100)%Qc 7 in
  ∃ b',
    cash_flow short_horizon (60 + 0) (Qc_of_Z 100 * (1 + r))%Qc b' ∧
    (60 ≤ 61 →
     ∀ b'', cash_flow short_horizon (60 + 0) (Qc_of_Z 100 * (1 + r))%Qc b'' →
            b'' = b') ∧
    for_years (full_year CounterGen.normal short_horizon) (range (63 - 60))
      (Qc_of_Z 100) 7
    = if decide (b' ≤ 0)%Qc then (Break 0%Qc, g2)
      else for_years (full_year CounterGen.normal short_horizon)
             (seqZ (0 + 1) (63 - 60 - 0 - 1)) b' g2.
Proof.
  apply (full_path_year CounterGen.normal short_horizon 7 7 0 (Qc_of_Z 100)).
  - cbn; lia.
  - reflexivity.
Defined.

Lemma depletion_is_terminal_witness :
  for_years (full_year CounterGen.normal retired_now) (range 0 ++ 0 :: [1])
    (Qc_of_Z 100) 7 = (Break 0%Qc, 8) ∧
  (0 ≤ 0 < 62 - 60 → full_path CounterGen.normal retired_now 7 = (0%Qc, 8)).
Proof.
  apply (depletion_is_terminal CounterGen.normal retired_now FullHorizon
           7 7 0 (Qc_of_Z 100) [1]).
  - reflexivity.
  - by vm_compute.
Defined.

Lemma zero_volatility_closed_form_witness :
  ∃ g',
    CounterGen.run (with_seed (Some 1) sidebar_defaults) 0
    = Some (replicate 1 (closed_final sidebar_defaults),
            replicate 1 (closed_retire sidebar_defaults), g').
Proof.
  apply (zero_volatility_closed_form CounterGen.seed_state CounterGen.normal
           sidebar_defaults (Some 1) 0).
  - cbn; lia.
  - reflexivity.
  - exact counter_normal_degenerate.
  - cbn; lia.
Defined.

Lemma retire_balances_and_withdraw_witness :
  (∀ g, retire_path CounterGen.normal
          (with_withdraw (Qc_of_Z 2) short_horizon) g
        = retire_path CounterGen.normal short_horizon g) ∧
  retires_of (CounterGen.run (with_withdraw (Qc_of_Z 2) short_horizon) 0)
  = retires_of (CounterGen.run short_horizon 0).
Proof.
  apply (retire_balances_and_withdraw CounterGen.seed_state CounterGen.normal
           short_horizon (Qc_of_Z 2) 0).
  intros g Hg. injection Hg as <-. vm_compute. repeat split.
Defined.


(** C5, as stated, fails: raising the withdrawal from 1 to 1000 makes the
    full path of the first trial stop a year earlier, so the path to
    retirement draws from an earlier generator state and ends at 120
    instead of 110. *)
Lemma retire_balances_depend_on_withdraw :
  well_formed short_horizon ∧
  well_formed (with_withdraw (Qc_of_Z 1000) short_horizon) ∧
  seed short_horizon = Some 7 ∧
  seed (with_withdraw (Qc_of_Z 1000) short_horizon) = Some 7 ∧
  retires_of (CounterGen.run short_horizon 0)
  = Some [Qc_of_Z 110; Qc_of_Z 105] ∧
  retires_of (CounterGen.run (with_withdraw (Qc_of_Z 1000) short_horizon) 0)
  = Some [Qc_of_Z 120; Qc_of_Z 90] ∧
  retires_of (CounterGen.run short_horizon 0)
  ≠ retires_of (CounterGen.run (with_withdraw (Qc_of_Z 1000) short_horizon) 0).
Proof.
  assert (retires_of (CounterGen.run short_horizon 0)
          = Some [Qc_of_Z 110; Qc_of_Z 105]) as H1.
  { unfold retires_of. vm_compute. do 2 f_equal; [|f_equal];
      by apply Qc_is_canon. }
  assert (retires_of (CounterGen.run
                        (with_withdraw (Qc_of_Z 1000) short_horizon) 0)
          = Some [Qc_of_Z 120; Qc_of_Z 90]) as H2.
  { unfold retires_of. vm_compute. do 2 f_equal; [|f_equal];
      by apply Qc_is_canon. }
  split; [apply short_horizon_well_formed|].
  split; [apply short_horizon_costly_well_formed|].
  do 2 (split; [reflexivity|]). do 2 (split; [done|]).
  rewrite H1, H2. intros H. discriminate H.
Qed.

(** * Further properties of the engine and of the results block *)

(** ** Shares of an array *)

Lemma Qc_of_nat_pos (n : nat) : n ≠ 0%nat → (0 < Qc_of_Z (Z.of_nat n))%Qc.
Proof. intros Hn. rewrite <- Z2Qc_inj_0. apply (proj1 (Z2Qc_inj_lt _ _)). lia. Qed.

Lemma Qc_div_bounds (c n : Z) :
  0 ≤ c ≤ n → 0 < n → (0 ≤ Qc_of_Z c / Qc_of_Z n ≤ 1)%Qc.
Proof.
  intros Hc Hn.
  assert (0 < Qc_of_Z n)%Qc as Hpos
    by (rewrite <- Z2Qc_inj_0; by apply (proj1 (Z2Qc_inj_lt _ _))).
  assert (0 ≤ / Qc_of_Z n)%Qc as Hinv by by apply Qclt_le_weak, Qcinv_pos.
  unfold Qcdiv. split.
  - apply Qcmult_nonneg_nonneg; [|done].
    rewrite <- Z2Qc_inj_0. apply (proj1 (Z2Qc_inj_le _ _)). lia.
  - rewrite <- (Qcmult_inv_r (Qc_of_Z n)) by by apply Qclt_not_eq in Hpos.
    apply Qcmult_le_mono_nonneg_r; [done|]. apply (proj1 (Z2Qc_inj_le _ _)). lia.
Qed.

Lemma fraction_bounds (P : Qc → Prop) `{∀ x, Decision (P x)} (xs : list Qc) :
  xs ≠ [] → (0 ≤ fraction P xs ≤ 1)%Qc.
Proof.
  intros Hne. unfold fraction. apply Qc_div_bounds.
  - pose proof (length_filter P xs). lia.
  - destruct xs; [done|]. cbn [length]. lia.
Qed.

Lemma fraction_all (P : Qc → Prop) `{∀ x, Decision (P x)} (xs : list Qc) :
  xs ≠ [] → Forall P xs → fraction P xs = 1%Qc.
Proof.
  intros Hne Hall. unfold fraction.
  replace (filter P xs) with xs.
  - unfold Qcdiv. apply Qcmult_inv_r. apply not_eq_sym, Qclt_not_eq.
    apply Qc_of_nat_pos. by destruct xs.
  - clear Hne. induction Hall as [|x l Hx Hl IH]; [done|].
    rewrite filter_cons_True by done. by f_equal.
Qed.

Lemma py_max_0_nonneg (x : Qc) : (0 ≤ py_max 0 x)%Qc.
Proof.
  unfold py_max. case_decide; [by apply Qclt_le_weak | apply Qcle_refl].
Qed.

Lemma pie_rest_complement (x : Qc) :
  (0 ≤ x ≤ 1)%Qc → (0 ≤ pie_rest x)%Qc ∧ (x + pie_rest x)%Qc = 1%Qc.
Proof.
  intros [H0 H1]. split; [apply py_max_0_nonneg|].
  unfold pie_rest, py_max. case_decide as Hlt; [ring|].
  apply Qcnot_lt_le in Hlt.
  assert (1 ≤ x)%Qc as H1'.
  { apply Qcle_minus_iff in Hlt. apply Qcle_minus_iff.
    replace (x + - 1)%Qc with (0 + - (1 - x))%Qc by ring. done. }
  rewrite (Qcle_antisym _ _ H1 H1'). ring.
Qed.



(** ** The results block on the arrays of a run *)

Section Results.
Context {G : Type}.
Variable np_random_seed : Z → G.
Variable np_random_normal : Qc → Qc → Rand G Qc.

Local Abbreviation run := (run_monte_carlo np_random_seed np_random_normal).

(** On a returned result of a run with at least one trial, the two
    probabilities of the report exist, lie between 0 and 1, and the two
    slices of each donut are non-negative and sum to 1. *)
Theorem report_probabilities_bounded (p : params) (g g' : G)
    (finals retires : list Qc) :
  1 ≤ n_sims p →
  run p g = Some (finals, retires, g') →
  ∃ on_track alive,
    prob_target p retires = Some on_track ∧
    prob_survive finals = Some alive ∧
    (0 ≤ on_track ≤ 1)%Qc ∧ (0 ≤ alive ≤ 1)%Qc ∧
    (0 ≤ pie_rest on_track)%Qc ∧ (on_track + pie_rest on_track)%Qc = 1%Qc ∧
    (0 ≤ pie_rest alive)%Qc ∧ (alive + pie_rest alive)%Qc = 1%Qc.
Proof.
  intros Hn R.
  destruct (run_entries np_random_seed np_random_normal _ _ _ _ _ R)
    as (Hlf & Hlr & _).
  assert (finals ≠ []) as Hf by (intros ->; cbn in Hlf; lia).
  assert (retires ≠ []) as Hr by (intros ->; cbn in Hlr; lia).
  exists (fraction (λ x, target p ≤ x)%Qc retires),
         (fraction (λ x, 0 < x)%Qc finals).
  split; [by apply np_mean_indicators|].
  split; [by apply np_mean_indicators|].
  pose proof (fraction_bounds (λ x, target p ≤ x)%Qc retires Hr) as Ht.
  pose proof (fraction_bounds (λ x, 0 < x)%Qc finals Hf) as Hs.
  destruct (pie_rest_complement _ Ht), (pie_rest_complement _ Hs). done.
Qed.

Lemma run_result_nonneg (p : params) (g g' : G) (finals retires : list Qc) :
  well_formed p → run p g = Some (finals, retires, g') →
  finals ≠ [] ∧ retires ≠ [] ∧
  Forall (λ x, 0 ≤ x)%Qc finals ∧ Forall (λ x, 0 ≤ x)%Qc retires.
Proof.
  intros (_ & Hn & Hcs & _) R.
  destruct (run_entries np_random_seed np_random_normal _ _ _ _ _ R)
    as (Hlf & Hlr & Hfs & Hrs).
  split; [intros ->; cbn in Hlf; lia|].
  split; [intros ->; cbn in Hlr; lia|].
  split; apply Forall_forall; intros x Hx.
  - destruct (Hfs x Hx) as [g0 ->]. by apply full_path_nonneg.
  - destruct (Hrs x Hx) as [g0 ->]. by apply retire_path_nonneg.
Qed.

(** With well-formed parameters and nothing to fund (no year between
    retirement and life expectancy, or no withdrawal) the target is 0 and,
    on a returned result, the chance of being on track is 1. *)
Theorem on_track_certain_without_target (p : params) (g g' : G)
    (finals retires : list Qc) :
  well_formed p →
  life_expectancy p ≤ retire_age p ∨ withdraw_retire p = 0%Qc →
  run p g = Some (finals, retires, g') →
  target p = 0%Qc ∧ prob_target p retires = Some 1%Qc.
Proof.
  intros Hwf Hnone R.
  destruct (run_result_nonneg p g g' finals retires Hwf R)
    as (_ & Hr & _ & Hrs).
  assert (target p = 0%Qc) as Ht.
  { unfold target, years_retirement. destruct Hnone as [Hle | ->].
    - rewrite Z.max_l by lia. rewrite Z2Qc_inj_0. apply Qcmult_0_r.
    - apply Qcmult_0_l. }
  split; [done|]. unfold prob_target.
  rewrite np_mean_indicators by done. f_equal.
  apply fraction_all; [done|]. by rewrite Ht.
Qed.


(** The call from the side bar with the number [s] in the seed box is the
    call of the engine with the seed [s]; with [s = 0] it is the call with
    no seed, which starts the trials from the state the generator is in. *)
Theorem ui_run_seed (p : params) (s : Z) (g : G) :
  ui_run np_random_seed np_random_normal p s g = run (with_seed (Some s) p) g
  ∧ (s = 0 →
     ui_run np_random_seed np_random_normal p s g = run (with_seed None p) g
     ∧ seeded np_random_seed (with_seed (Some s) p) g = Some g)
  ∧ (s ≠ 0 →
     seeded np_random_seed (with_seed (ui_seed s) p) g
     = np_seed np_random_seed s).
Proof.
  unfold ui_run, ui_seed. destruct (decide (s ≠ 0)) as [Hs|Hs].
  - split; [done|]. split; [by intros ->|]. intros _.
    unfold seeded. cbn [seed with_seed]. by rewrite decide_True.
  - assert (s = 0) as -> by lia. split; [|split; [|done]].
    + unfold run_monte_carlo, seeded. cbn [seed with_seed n_sims].
      by rewrite decide_False by done.
    + intros _. unfold run_monte_carlo, seeded. cbn [seed with_seed n_sims].
      by rewrite decide_False by done.
Qed.

End Results.

(** ** More trials, and the two loops of a trial *)

Section Trials.
Context {G : Type}.
Variable np_random_seed : Z → G.
Variable np_random_normal : Qc → Qc → Rand G Qc.

Local Abbreviation run := (run_monte_carlo np_random_seed np_random_normal).

Lemma trials_app (p : params) (n m : nat) (g : G) :
  trials np_random_normal p (n + m) g =
  let '(ts1, g1) := trials np_random_normal p n g in
  let '(ts2, g2) := trials np_random_normal p m g1 in
  (ts1 ++ ts2, g2).
Proof.
  revert g. induction n as [|n IH]; intros g.
  - cbn. by destruct (trials np_random_normal p m g).
  - cbn [Nat.add trials]. unfold rbind, rret.
    destruct (trial np_random_normal p g) as [t g0]. rewrite IH.
    destruct (trials np_random_normal p n g0) as [ts1 g1].
    by destruct (trials np_random_normal p m g1) as [ts2 g2].
Qed.

Lemma trials_same_paths (p1 p2 : params) (n : nat) (g : G) :
  (∀ g0, trial np_random_normal p1 g0 = trial np_random_normal p2 g0) →
  trials np_random_normal p1 n g = trials np_random_normal p2 n g.
Proof.
  intros Ht. revert g. induction n as [|n IH]; intros g; [done|].
  cbn [trials]. unfold rbind, rret. rewrite Ht.
  destruct (trial np_random_normal p2 g) as [t g0]. by rewrite IH.
Qed.

(** A run of [n + m] trials is a run of [n] trials followed by an
    unseeded run of [m] trials from the generator state the first one
    left: the arrays are the concatenations.  In particular the first [n]
    balances of a longer run under the same seed are those of the shorter
    run. *)
Theorem run_more_trials (p : params) (n m : Z) (g : G) :
  0 ≤ n → 0 ≤ m →
  run (with_n_sims (n + m) p) g =
  match run (with_n_sims n p) g with
  | Some (finals1, retires1, g1) =>
      match run (with_n_sims m (with_seed None p)) g1 with
      | Some (finals2, retires2, g2) =>
          Some (finals1 ++ finals2, retires1 ++ retires2, g2)
      | None => None
      end
  | None => None
  end.
Proof.
  intros Hn Hm. rewrite !run_monte_carlo_trials by (cbn; lia).
  cbn [n_sims with_n_sims with_seed].
  change (seeded np_random_seed (with_n_sims (n + m) p) g)
    with (seeded np_random_seed p g).
  change (seeded np_random_seed (with_n_sims n p) g)
    with (seeded np_random_seed p g).
  destruct (seeded np_random_seed p g) as [g0|]; [|done].
  rewrite (trials_same_paths (with_n_sims (n + m) p) p) by done.
  rewrite (trials_same_paths (with_n_sims n p) p) by done.
  rewrite Z2Nat.inj_add, trials_app by done.
  destruct (trials np_random_normal p (Z.to_nat n) _) as [ts1 g1].
  rewrite run_monte_carlo_trials by (cbn; lia).
  cbn [n_sims with_n_sims with_seed].
  change (seeded np_random_seed (with_n_sims m (with_seed None p)) g1)
    with (Some g1). cbv beta iota.
  rewrite (trials_same_paths (with_n_sims m (with_seed None p)) p) by done.
  destruct (trials np_random_normal p (Z.to_nat m) g1) as [ts2 g2].
  by rewrite !fmap_app.
Qed.

Lemma updates_agree_before_retirement (p : params) (y : Z) (bal r : Qc) :
  current_age p + y < retire_age p →
  full_update p y bal r = retire_update p y bal r.
Proof.
  intros Hy. unfold full_update, retire_update.
  case_decide; [done|]. by rewrite decide_True.
Qed.

(** The loop of the path to retirement is the loop of the full path cut
    at the retirement age: over the years [0 .. retire_age - current_age)
    the two loops compute the same balance from the same generator state
    and leave the same state.  When life expectancy equals the retirement
    age the two paths are the same computation. *)
Theorem retire_path_is_full_path_cut (p : params) (g : G) :
  retire_path np_random_normal p g
  = (let '(c, g') := for_years (full_year np_random_normal p)
                       (range (retire_age p - current_age p))
                       (current_savings p) g in
     (ctl_bal c, g'))
  ∧ (life_expectancy p = retire_age p →
     full_path np_random_normal p g = retire_path np_random_normal p g).
Proof.
  assert (∀ bal g0,
            for_years (full_year np_random_normal p)
              (range (retire_age p - current_age p)) bal g0
            = for_years (retire_year np_random_normal p)
                (range (retire_age p - current_age p)) bal g0) as Hcut.
  { apply for_years_ext. intros y Hy bal g0. apply elem_of_seqZ in Hy.
    unfold full_year, retire_year, rbind.
    destruct (draw_return np_random_normal p g0) as [r g1].
    by rewrite updates_agree_before_retirement by lia. }
  split.
  - rewrite Hcut. reflexivity.
  - intros Heq. unfold full_path, retire_path, years_total, years_to_retire,
      rbind. by rewrite Heq, Hcut.
Qed.

Lemma path_nonneg_after_year (p : params) (h : horizon) (g : G) :
  0 < horizon_years p h → (0 ≤ (path np_random_normal p h g).1)%Qc.
Proof.
  intros Hy. rewrite path_unfold.
  pose proof (for_years_clamped (year_body np_random_normal p h)) as H.
  specialize (H ltac:(destruct h; [apply full_year_clamping
                                  | apply retire_year_clamping])
                (range (horizon_years p h)) (current_savings p) g).
  destruct (for_years _ _ _ g) as [[b|b] g']; cbn in *.
  - destruct H as [[Hnil _]|H]; [|by apply Qclt_le_weak].
    apply (f_equal length) in Hnil. unfold range in Hnil.
    rewrite length_seqZ in Hnil. cbn in Hnil. lia.
  - subst b. apply Qcle_refl.
Qed.

(** Once a path runs at least one year its balance is never negative,
    whatever the sign of [current_savings]: in a returned result, with
    [current_age < life_expectancy] every final balance is [≥ 0], with
    [current_age < retire_age] every balance at retirement is. *)
Theorem a_year_clamps_any_savings (p : params) (g g' : G)
    (finals retires : list Qc) :
  run p g = Some (finals, retires, g') →
  (current_age p < life_expectancy p → Forall (λ x, 0 ≤ x)%Qc finals) ∧
  (current_age p < retire_age p → Forall (λ x, 0 ≤ x)%Qc retires).
Proof.
  intros R.
  destruct (run_entries np_random_seed np_random_normal _ _ _ _ _ R)
    as (_ & _ & Hfs & Hrs).
  split; intros Hy; apply Forall_forall; intros x Hx.
  - destruct (Hfs x Hx) as [g0 ->].
    apply (path_nonneg_after_year p FullHorizon). cbn. unfold years_total. lia.
  - destruct (Hrs x Hx) as [g0 ->].
    apply (path_nonneg_after_year p RetireHorizon). cbn.
    unfold years_to_retire. lia.
Qed.

End Trials.

(** ** The median against the share on track *)














(** ** Better parameters *)

Section Better.
Context {G : Type}.
Variable np_random_normal : Qc → Qc → Rand G Qc.
Variables p1 p2 : params.
Hypothesis better : at_least_as_good p1 p2.

Lemma draw_return_same (g : G) :
  draw_return np_random_normal p2 g = draw_return np_random_normal p1 g.
Proof.
  destruct better as (_ & _ & _ & _ & Hm & Hv & _).
  unfold draw_return. by rewrite Hm, Hv.
Qed.

Lemma horizon_years_same (h : horizon) :
  horizon_years p2 h = horizon_years p1 h.
Proof.
  destruct better as (Hc & _ & Hr & Hl & _).
  destruct h; cbn; unfold years_total, years_to_retire; lia.
Qed.

Lemma year_flow_mono (h : horizon) (y : Z) :
  (year_flow p1 h (current_age p1 + y)
   ≤ year_flow p2 h (current_age p2 + y))%Qc.
Proof.
  destruct better as (Hc & Ho & Hr & _ & _ & _ & _ & Hcf & Hcb & Hw).
  destruct h; cbn [year_flow]; unfold full_flow, retire_flow;
    rewrite <- Hc, <- Ho, <- ?Hr; repeat case_decide; try done.
  by apply Qcopp_le_compat.
Qed.

Lemma year_update_mono (h : horizon) (y : Z) (b1 b2 r : Qc) :
  (0 ≤ 1 + r)%Qc → (b1 ≤ b2)%Qc →
  (year_update p1 h y b1 r ≤ year_update p2 h y b2 r)%Qc.
Proof.
  intros Hr Hb.
  assert (∀ p b, year_update p h y b r
                 = (b * (1 + r) + year_flow p h (current_age p + y))%Qc)
    as Hflow.
  { intros p b. destruct h; cbn [year_update year_flow];
      [apply full_update_flow | apply retire_update_flow]. }
  rewrite !Hflow. apply Qcplus_le_compat; [|apply year_flow_mono].
  by apply Qcmult_le_mono_nonneg_r.
Qed.

Lemma year_body_clamping (p : params) (h : horizon) :
  clamping (year_body np_random_normal p h).
Proof. destruct h; [apply full_year_clamping | apply retire_year_clamping]. Qed.

Lemma for_years_mono (h : horizon) (years : list Z) :
  ∀ (b1 b2 : Qc) (g : G),
    (b1 ≤ b2)%Qc →
    Forall (λ r, 0 ≤ 1 + r)%Qc
      (years_draws (draw_return np_random_normal p1)
         (year_body np_random_normal p1 h) years b1 g) →
    (ctl_bal (for_years (year_body np_random_normal p1 h) years b1 g).1
     ≤ ctl_bal (for_years (year_body np_random_normal p2 h) years b2 g).1)%Qc.
Proof.
  induction years as [|y years IH]; intros b1 b2 g Hb Hdraws; [done|].
  cbn [years_draws] in Hdraws. apply Forall_cons in Hdraws as [Hr Hrest].
  cbn [for_years]. unfold rbind.
  rewrite year_body_unfold in Hrest. rewrite !year_body_unfold.
  rewrite draw_return_same.
  pose proof (year_update_mono h y b1 b2 _ Hr Hb) as Hupd.
  set (u1 := year_update p1 h y b1 _) in *.
  set (u2 := year_update p2 h y b2 _) in *.
  destruct (decide (u2 ≤ 0)%Qc) as [H2|H2].
  - rewrite decide_True by by eapply Qcle_trans. cbn. apply Qcle_refl.
  - destruct (decide (u1 ≤ 0)%Qc) as [H1|H1].
    + cbn [rret fst ctl_bal].
      apply for_years_nonneg; [apply year_body_clamping|].
      by apply Qclt_le_weak, Qcnot_le_lt.
    + by apply IH.
Qed.

End Better.

(** A path never ends lower when the parameters are better.  With the
    same ages and returns, at least the savings and the contributions and
    at most the withdrawal, either path of a trial run from the same
    generator state ends at least as high, provided that none of the
    returns drawn along the path under the lesser parameters is below
    -100%. *)
Theorem better_parameters_never_hurt {G}
    (np_random_normal : Qc → Qc → Rand G Qc) (p1 p2 : params) (h : horizon)
    (g : G) :
  at_least_as_good p1 p2 →
  Forall (λ r, 0 ≤ 1 + r)%Qc (path_draws np_random_normal p1 h g) →
  ((path np_random_normal p1 h g).1 ≤ (path np_random_normal p2 h g).1)%Qc.
Proof.
  intros Hbetter Hdraws. rewrite !path_unfold.
  rewrite (horizon_years_same p1 p2 Hbetter).
  pose proof Hbetter as (_ & _ & _ & _ & _ & _ & Hs & _).
  pose proof (for_years_mono np_random_normal p1 p2 Hbetter h
                (range (horizon_years p1 h)) _ _ g Hs Hdraws) as Hmono.
  destruct (for_years _ _ (current_savings p1) g) as [c1 g1].
  by destruct (for_years _ _ (current_savings p2) g) as [c2 g2].
Qed.

(** ** The arrays and the trials *)

(** For a count [n ≥ 0] and a volatility the sampler takes, the indexed
    assignments of the call never fail: the call raises exactly when the
    seeding does, and otherwise returns, index by index, the balances of
    the [n] trials run one after the other on the generator, from the
    state the seeding gave. *)
Theorem run_fills_arrays_in_trial_order {G} (np_random_seed : Z → G)
    (np_random_normal : Qc → Qc → Rand G Qc) (p : params) (g : G) :
  0 ≤ n_sims p → (0 ≤ return_vol p)%Qc →
  run_monte_carlo np_random_seed np_random_normal p g
  = match seeded np_random_seed p g with
    | Some g1 =>
        let '(ts, g') := trials np_random_normal p (Z.to_nat (n_sims p)) g1 in
        Some (ts.*1, ts.*2, g')
    | None => None
    end
  ∧ (run_monte_carlo np_random_seed np_random_normal p g = None
     ↔ seeded np_random_seed p g = None).
Proof.
  intros Hn _. rewrite run_monte_carlo_trials by done.
  split; [done|].
  destruct (seeded np_random_seed p g) as [g1|]; [|done].
  by destruct (trials np_random_normal p (Z.to_nat (n_sims p)) g1).
Qed.

(** ** The further properties on concrete inputs *)

Lemma report_probabilities_bounded_witness :
  ∃ on_track alive,
    prob_target short_horizon short_retires = Some on_track ∧
    prob_survive short_finals = Some alive ∧
    (0 ≤ on_track ≤ 1)%Qc ∧ (0 ≤ alive ≤ 1)%Qc ∧
    (0 ≤ pie_rest on_track)%Qc ∧ (on_track + pie_rest on_track)%Qc = 1%Qc ∧
    (0 ≤ pie_rest alive)%Qc ∧ (alive + pie_rest alive)%Qc = 1%Qc.
Proof.
  apply (report_probabilities_bounded CounterGen.seed_state CounterGen.normal
           short_horizon 0 15 short_finals short_retires).
  - cbn; lia.
  - vm_compute. reflexivity.
Defined.

Lemma on_track_certain_without_target_witness :
  target ends_at_retirement = 0%Qc ∧
  prob_target ends_at_retirement (run_retires ends_at_retirement 0)
  = Some 1%Qc.
Proof.
  apply (on_track_certain_without_target CounterGen.seed_state
           CounterGen.normal ends_at_retirement 0
           (run_state ends_at_retirement 0)
           (run_finals ends_at_retirement 0)
           (run_retires ends_at_retirement 0)).
  - repeat split; try (cbn; lia); by vm_compute.
  - left. cbn; lia.
  - vm_compute. reflexivity.
Defined.


Lemma ui_run_seed_witness :
  ui_run CounterGen.seed_state CounterGen.normal short_horizon 0 5
  = CounterGen.run (with_seed None short_horizon) 5
  ∧ seeded CounterGen.seed_state (with_seed (ui_seed 9) short_horizon) 5
    = np_seed CounterGen.seed_state 9.
Proof.
  split.
  - apply (ui_run_seed CounterGen.seed_state CounterGen.normal
             short_horizon 0 5). reflexivity.
  - apply (ui_run_seed CounterGen.seed_state CounterGen.normal
             short_horizon 9 5). lia.
Defined.

Lemma run_more_trials_witness :
  CounterGen.run (with_n_sims (1 + 1) short_horizon) 0 =
  match CounterGen.run (with_n_sims 1 short_horizon) 0 with
  | Some (finals1, retires1, g1) =>
      match CounterGen.run (with_n_sims 1 (with_seed None short_horizon)) g1
      with
      | Some (finals2, retires2, g2) =>
          Some (finals1 ++ finals2, retires1 ++ retires2, g2)
      | None => None
      end
  | None => None
  end.
Proof.
  apply (run_more_trials CounterGen.seed_state CounterGen.normal
           short_horizon 1 1 0); lia.
Defined.

Lemma retire_path_is_full_path_cut_witness :
  full_path CounterGen.normal ends_at_retirement 7
  = retire_path CounterGen.normal ends_at_retirement 7.
Proof.
  apply (retire_path_is_full_path_cut CounterGen.normal ends_at_retirement 7).
  reflexivity.
Defined.

Lemma a_year_clamps_any_savings_witness :
  (60 < 63 → Forall (λ x, 0 ≤ x)%Qc (run_finals in_debt 0)) ∧
  (60 < 61 → Forall (λ x, 0 ≤ x)%Qc (run_retires in_debt 0)).
Proof.
  apply (a_year_clamps_any_savings CounterGen.seed_state CounterGen.normal
           in_debt 0 (run_state in_debt 0) (run_finals in_debt 0)
           (run_retires in_debt 0)).
  vm_compute. reflexivity.
Defined.


Lemma better_parameters_never_hurt_witness :
  ((path CounterGen.normal short_horizon FullHorizon 7%Z).1
   ≤ (path CounterGen.normal (with_withdraw 0 short_horizon)
        FullHorizon 7%Z).1)%Qc.
Proof.
  apply (better_parameters_never_hurt CounterGen.normal short_horizon
           (with_withdraw 0%Qc short_horizon) FullHorizon 7).
  - repeat split; try reflexivity; by vm_compute.
  - apply (bool_decide_unpack _). vm_compute. exact I.
Defined.

Lemma run_fills_arrays_in_trial_order_witness :
  CounterGen.run short_horizon 0
  = match seeded CounterGen.seed_state short_horizon 0 with
    | Some g1 =>
        let '(ts, g') := trials CounterGen.normal short_horizon (Z.to_nat 2)
                           g1 in
        Some (ts.*1, ts.*2, g')
    | None => None
    end
  ∧ (CounterGen.run short_horizon 0 = None
     ↔ seeded CounterGen.seed_state short_horizon 0 = None).
Proof.
  apply (run_fills_arrays_in_trial_order CounterGen.seed_state
           CounterGen.normal short_horizon 0).
  - cbn; lia.
  - by vm_compute.
Defined.
